(** * Sliding-window (delay) embedding: [getSlidingWindow]

    A shallow embedding of the routine [getSlidingWindow(x, dim, Tau, dT)]
    that both tutorial notebooks define (1-SlidingWindowBasics.ipynb and
    2-PersistentHomology.ipynb; the two definitions are textually the same),
    together with the properties its specification states about it.

    Modelling choices.
    - Real-valued quantities (the samples of [x], [Tau], [dT], the fractional
      positions) are exact rationals [Q]; rounding of machine floats is not
      represented.  [dim] and all indices are [Z], as Python integers are.
    - The NumPy array [X] is a list of rows that the loop updates in place
      ([X[i, :] = ...] is list insertion at [i], [X[0:i, :]] is [take]).
    - [scipy.interpolate.spline] is an external routine: the development is
      parametric in it (a [Section] variable), and facts that rest on its
      contract take that contract as a named assumption ([interpolant]).
    - A call either returns a matrix or raises a Python exception; in both
      cases the model records what the call printed. *)

From Stdlib Require Import ZArith QArith Qround Lia Lqa String.
From stdpp Require Import base tactics option list list_numbers.

Local Open Scope Z_scope.

(** ** Python / NumPy vocabulary used by the routine *)

Abbreviation matrix := (list (list Q)).

Inductive pyexn := ZeroDivisionError | ValueError | IndexError.

(** What a call does: the lines it printed, and either the returned array or
    the exception that ended it. *)
Inductive outcome :=
| Returned (stdout : list string) (X : matrix)
| Raised (stdout : list string) (e : pyexn).


(** [np.zeros((r, c))]: refuses a negative dimension. *)
Definition np_zeros (r c : Z) : pyexn + matrix :=
  if (r <? 0) || (c <? 0) then inl ValueError
  else inr (replicate (Z.to_nat r) (replicate (Z.to_nat c) 0%Q)).

(** [np.arange(n)] *)
Definition np_arange (n : Z) : list Z := seqZ 0 n.

(** A slice bound of [l[a:b]] as Python resolves it: a negative bound counts
    from the end, and the result is clamped to [0 .. len]. *)
Definition py_bound (len k : Z) : Z :=
  if k <? 0 then Z.max 0 (len + k) else Z.min len k.

(** [l[a:b]] *)
Definition py_slice {A} (l : list A) (a b : Z) : list A :=
  let len := Z.of_nat (length l) in
  let a' := py_bound len a in
  let b' := py_bound len b in
  take (Z.to_nat (b' - a')) (drop (Z.to_nat a') l).

Definition too_large_msg : string := "Error: Tau too large for signal extent".

(** ** The window geometry *)

(** [idxx = dT*i + Tau*np.arange(dim)] *)
Definition position (Tau dT : Q) (i j : Z) : Q :=
  (dT * inject_Z i + Tau * inject_Z j)%Q.

Definition positions (dim : Z) (Tau dT : Q) (i : Z) : list Q :=
  position Tau dT i <$> np_arange dim.

(** [int(np.floor((N - dim*Tau)/dT))], for [dT] other than zero. *)
Definition NWindows (x : list Q) (dim : Z) (Tau dT : Q) : Z :=
  Qfloor ((inject_Z (Z.of_nat (length x)) - inject_Z dim * Tau) / dT)%Q.

(** [start] and [end] of window [i], read off the first and last position. *)
Definition win_start (Tau dT : Q) (i : Z) : Z := Qfloor (position Tau dT i 0).
Definition win_end (dim : Z) (Tau dT : Q) (i : Z) : Z :=
  Qceiling (position Tau dT i (dim - 1)) + 2.

Section SlidingWindow.

(** [interp.spline(xk, yk, xnew)] with its default order 3. *)
Variable spline : list Z -> list Q -> list Q -> list Q.

(** The body of [for i in range(NWindows)]: [fuel] iterations remain, [i]
    is the loop variable and [X] the array as it stands. *)
Fixpoint window_loop (x : list Q) (dim : Z) (Tau dT : Q)
    (fuel : nat) (i : Z) (X : matrix) : pyexn + matrix :=
  match fuel with
  | O => inr X
  | S fuel' =>
      let idx := np_arange (Z.of_nat (length x)) in
      let idxx := positions dim Tau dT i in
      match head idxx, last idxx with
      | Some first, Some final =>
          let start := Qfloor first in
          let end_ := Qceiling final + 2 in
          if Z.of_nat (length x) <=? end_ then inr (take (Z.to_nat i) X)
          else
            let row := spline (py_slice idx start (end_ + 1))
                              (py_slice x start (end_ + 1)) idxx in
            window_loop x dim Tau dT fuel' (i + 1) (<[Z.to_nat i := row]> X)
      | _, _ => inl IndexError
      end
  end.

Definition getSlidingWindow (x : list Q) (dim : Z) (Tau dT : Q) : outcome :=
  if Qeq_bool dT 0 then Raised [] ZeroDivisionError
  else
    let NW := NWindows x dim Tau dT in
    if NW <=? 0 then
      match np_zeros 3 dim with
      | inl e => Raised [too_large_msg] e
      | inr placeholder => Returned [too_large_msg] placeholder
      end
    else
      match np_zeros NW dim with
      | inl e => Raised [] e
      | inr X0 =>
          match window_loop x dim Tau dT (Z.to_nat NW) 0 X0 with
          | inl e => Raised [] e
          | inr X => Returned [] X
          end
      end.

(** Row [i] as the loop computes it. *)
Definition window_row (x : list Q) (dim : Z) (Tau dT : Q) (i : Z) : list Q :=
  spline (py_slice (np_arange (Z.of_nat (length x)))
                   (win_start Tau dT i) (win_end dim Tau dT i + 1))
         (py_slice x (win_start Tau dT i) (win_end dim Tau dT i + 1))
         (positions dim Tau dT i).

(** How many windows the loop stores before it meets one whose right bound
    reaches the end of the signal. *)
Fixpoint stored_windows (N dim : Z) (Tau dT : Q) (fuel : nat) (i : Z) : nat :=
  match fuel with
  | O => O
  | S fuel' =>
      if N <=? win_end dim Tau dT i then O
      else S (stored_windows N dim Tau dT fuel' (i + 1))
  end.

End SlidingWindow.

(** ** A concrete interpolation routine

    Piecewise-linear interpolation through the knots, constant outside them.
    It is one routine that meets the contract [interpolant] below, and it is
    what the closed examples run the embedding with. *)

Fixpoint linear_at (xk : list Z) (yk : list Q) (q : Q) : Q :=
  match xk, yk with
  | x0 :: xk', y0 :: yk' =>
      if Qle_bool q (inject_Z x0) then y0
      else
        match xk', yk' with
        | x1 :: _, y1 :: _ =>
            if Qle_bool (inject_Z x1) q then linear_at xk' yk' q
            else (y0 + (y1 - y0) * ((q - inject_Z x0) / inject_Z (x1 - x0)))%Q
        | _, _ => y0
        end
  | _, _ => 0%Q
  end.

Definition linear_interp (xk : list Z) (yk : list Q) (xnew : list Q) : list Q :=
  linear_at xk yk <$> xnew.

(** The contract of an interpolation routine that the embedding relies on:
    one value per query position, and the sample itself at a query that falls
    on a knot (the knots the embedding passes are consecutive integers). *)
Record interpolant (spline : list Z -> list Q -> list Q -> list Q) : Prop := {
  interp_length : forall xk yk xnew,
    length (spline xk yk xnew) = length xnew;
  interp_knot : forall (a : Z) (yk xnew : list Q) (j k : nat) (q y : Q),
    xnew !! j = Some q ->
    yk !! k = Some y ->
    (q == inject_Z (a + Z.of_nat k))%Q ->
    spline (seqZ a (Z.of_nat (length yk))) yk xnew !! j = Some y
}.

(** Row [i] of the embedding matrix is [row]: the call got past the size
    guard, returned an array, and that array holds [row] at index [i].  (The
    three zero rows handed back when the guard fires are not rows of an
    embedding.) *)
Definition emits (spline : list Z -> list Q -> list Q -> list Q)
    (x : list Q) (dim : Z) (Tau dT : Q) (i : nat) (row : list Q) : Prop :=
  0 < NWindows x dim Tau dT /\
  exists out X, getSlidingWindow spline x dim Tau dT = Returned out X /\
                X !! i = Some row.

(** Signals for the closed examples. *)
Definition ramp5 : list Q := [1; 2; 3; 4; 5]%Q.
Definition pair2 : list Q := [1; 2]%Q.

(** The number of window indices [i >= 0] whose right bound stays below
    [N], in closed form: [end_i < N] amounts to
    [dT*i + Tau*(dim-1) <= N - 3]. *)
Definition fitting_windows (N dim : Z) (Tau dT : Q) : Z :=
  Z.max 0 (Qfloor ((inject_Z N - 3 - Tau * inject_Z (dim - 1)) / dT) + 1).

(** Step 2 of the notebooks' cells, with the values most of them set:
    [dim = 20], [Tau = 1], [dT = 0.5], [X = getSlidingWindow(x, dim, Tau, dT)]. *)
Definition notebook_embedding (spline : list Z -> list Q -> list Q -> list Q)
    (x : list Q) : outcome :=
  getSlidingWindow spline x 20 1 (1 # 2).

(** Step 2 of the second notebook's two-sinusoid cell: [dim = 10],
    [Tau = 3], [dT = 0.5]. *)
Definition two_sines_embedding (spline : list Z -> list Q -> list Q -> list Q)
    (x : list Q) : outcome :=
  getSlidingWindow spline x 10 3 (1 # 2).

(** Step 2 of the second notebook's [g1]/[g2] cell: [dim = 20], [Tau = 5],
    [dT = 1]. *)
Definition g_embedding (spline : list Z -> list Q -> list Q -> list Q)
    (g : list Q) : outcome :=
  getSlidingWindow spline g 20 5 1.

Definition ramp24 : list Q := inject_Z <$> seqZ 0 24.
Definition ramp102 : list Q := inject_Z <$> seqZ 0 102.

(** ** Slices, positions and window bounds *)

Lemma py_slice_in_range {A} (l : list A) (a b : Z) :
  0 <= a -> a <= b -> b <= Z.of_nat (length l) ->
  py_slice l a b = take (Z.to_nat (b - a)) (drop (Z.to_nat a) l).
Proof.
  intros Ha Hab Hb. unfold py_slice, py_bound.
  destruct (Z.ltb_spec a 0); [lia|].
  destruct (Z.ltb_spec b 0); [lia|].
  rewrite !Z.min_r by lia. reflexivity.
Qed.

Lemma py_slice_length {A} (l : list A) (a b : Z) :
  0 <= a -> a <= b -> b <= Z.of_nat (length l) ->
  length (py_slice l a b) = Z.to_nat (b - a).
Proof.
  intros Ha Hab Hb. rewrite py_slice_in_range by assumption.
  rewrite length_take, length_drop. lia.
Qed.

Lemma py_slice_lookup {A} (l : list A) (a b : Z) (k : nat) :
  0 <= a -> a <= b -> b <= Z.of_nat (length l) ->
  (k < Z.to_nat (b - a))%nat ->
  py_slice l a b !! k = l !! (Z.to_nat a + k)%nat.
Proof.
  intros Ha Hab Hb Hk. rewrite py_slice_in_range by assumption.
  rewrite lookup_take_lt by assumption. apply lookup_drop.
Qed.

Lemma py_slice_arange (n a b : Z) :
  0 <= a -> a <= b -> b <= n ->
  py_slice (np_arange n) a b = seqZ a (b - a).
Proof.
  intros Ha Hab Hb. unfold np_arange.
  assert (Hlen : Z.of_nat (length (seqZ 0 n)) = n) by (rewrite length_seqZ; lia).
  apply list_eq. intros k.
  destruct (Nat.lt_ge_cases k (Z.to_nat (b - a))) as [Hk|Hk].
  - rewrite py_slice_lookup by (try rewrite Hlen; lia).
    rewrite !lookup_seqZ_lt by lia. f_equal. lia.
  - rewrite lookup_seqZ_ge by lia.
    apply lookup_ge_None. rewrite py_slice_length by (try rewrite Hlen; lia). lia.
Qed.

Lemma head_positions (dim : Z) (Tau dT : Q) (i : Z) :
  1 <= dim -> head (positions dim Tau dT i) = Some (position Tau dT i 0).
Proof.
  intros Hdim. unfold positions, np_arange.
  rewrite seqZ_cons by lia. reflexivity.
Qed.

Lemma last_positions (dim : Z) (Tau dT : Q) (i : Z) :
  1 <= dim -> last (positions dim Tau dT i) = Some (position Tau dT i (dim - 1)).
Proof.
  intros Hdim. unfold positions, np_arange.
  rewrite fmap_last, last_lookup, length_seqZ.
  rewrite lookup_seqZ_lt by lia. simpl. do 2 f_equal. lia.
Qed.

Lemma positions_length (dim : Z) (Tau dT : Q) (i : Z) :
  length (positions dim Tau dT i) = Z.to_nat dim.
Proof. unfold positions, np_arange. rewrite length_fmap. apply length_seqZ. Qed.


Lemma position_nonneg (Tau dT : Q) (i j : Z) :
  (0 <= Tau)%Q -> (0 <= dT)%Q -> 0 <= i -> 0 <= j ->
  (0 <= position Tau dT i j)%Q.
Proof.
  intros HT Hd Hi Hj. unfold position.
  assert (0 <= inject_Z i)%Q by (change 0%Q with (inject_Z 0); now rewrite <- Zle_Qle).
  assert (0 <= inject_Z j)%Q by (change 0%Q with (inject_Z 0); now rewrite <- Zle_Qle).
  assert (0 <= dT * inject_Z i)%Q by now apply Qmult_le_0_compat.
  assert (0 <= Tau * inject_Z j)%Q by now apply Qmult_le_0_compat.
  lra.
Qed.

Lemma position_mono_j (Tau dT : Q) (i j j' : Z) :
  (0 <= Tau)%Q -> j <= j' ->
  (position Tau dT i j <= position Tau dT i j')%Q.
Proof.
  intros HT Hj. unfold position.
  assert (inject_Z j <= inject_Z j')%Q by now rewrite <- Zle_Qle.
  assert (Tau * inject_Z j <= Tau * inject_Z j')%Q.
  { rewrite !(Qmult_comm Tau). now apply Qmult_le_compat_r. }
  lra.
Qed.

Lemma position_mono_i (Tau dT : Q) (i i' j : Z) :
  (0 <= dT)%Q -> i <= i' ->
  (position Tau dT i j <= position Tau dT i' j)%Q.
Proof.
  intros Hd Hi. unfold position.
  assert (inject_Z i <= inject_Z i')%Q by now rewrite <- Zle_Qle.
  assert (dT * inject_Z i <= dT * inject_Z i')%Q.
  { rewrite !(Qmult_comm dT). now apply Qmult_le_compat_r. }
  lra.
Qed.

(** The right bound never moves left as the window index grows. *)
Lemma win_end_mono (dim : Z) (Tau dT : Q) (i i' : Z) :
  (0 <= dT)%Q -> i <= i' -> win_end dim Tau dT i <= win_end dim Tau dT i'.
Proof.
  intros Hd Hi. unfold win_end.
  pose proof (Qceiling_resp_le _ _ (position_mono_i Tau dT i i' (dim - 1) Hd Hi)).
  lia.
Qed.

Lemma win_start_nonneg (Tau dT : Q) (i : Z) :
  (0 <= dT)%Q -> 0 <= i -> 0 <= win_start Tau dT i.
Proof.
  intros Hd Hi. unfold win_start.
  assert (H0 : (0 <= position Tau dT i 0)%Q).
  { unfold position. 
    assert (0 <= inject_Z i)%Q by (change 0%Q with (inject_Z 0); now rewrite <- Zle_Qle).
    assert (0 <= dT * inject_Z i)%Q by now apply Qmult_le_0_compat.
    change (inject_Z 0) with 0%Q. lra. }
  apply Qfloor_resp_le in H0. exact H0.
Qed.

Lemma win_start_le_end (dim : Z) (Tau dT : Q) (i : Z) :
  1 <= dim -> (0 <= Tau)%Q -> win_start Tau dT i + 2 <= win_end dim Tau dT i.
Proof.
  intros Hdim HT. unfold win_start, win_end.
  assert (H : (position Tau dT i 0 <= position Tau dT i (dim - 1))%Q)
    by (apply position_mono_j; [assumption | lia]).
  apply Qfloor_resp_le in H.
  pose proof (Qle_floor_ceiling (position Tau dT i (dim - 1))) as Hfc.
  rewrite <- Zle_Qle in Hfc. lia.
Qed.

(** Every position of a window sits between its [start] and [end - 2]. *)
Lemma position_in_window (dim : Z) (Tau dT : Q) (i j : Z) :
  (0 <= Tau)%Q -> 0 <= j < dim ->
  (inject_Z (win_start Tau dT i) <= position Tau dT i j)%Q /\
  (position Tau dT i j <= inject_Z (win_end dim Tau dT i - 2))%Q.
Proof.
  intros HT Hj. unfold win_start, win_end. split.
  - eapply Qle_trans; [apply Qfloor_le|]. apply position_mono_j; [assumption | lia].
  - replace (Qceiling (position Tau dT i (dim - 1)) + 2 - 2)
      with (Qceiling (position Tau dT i (dim - 1))) by lia.
    eapply Qle_trans; [|apply Qle_ceiling]. apply position_mono_j; [assumption | lia].
Qed.

(** ** The number of stored windows *)

Lemma stored_windows_le (N dim : Z) (Tau dT : Q) (fuel : nat) (i : Z) :
  (stored_windows N dim Tau dT fuel i <= fuel)%nat.
Proof.
  revert i. induction fuel as [|fuel IH]; intros i; simpl; [lia|].
  destruct (N <=? win_end dim Tau dT i); [lia|]. specialize (IH (i + 1)). lia.
Qed.

Lemma stored_windows_fit (N dim : Z) (Tau dT : Q) (fuel : nat) (i : Z) (k : nat) :
  (k < stored_windows N dim Tau dT fuel i)%nat ->
  win_end dim Tau dT (i + Z.of_nat k) < N.
Proof.
  revert i k. induction fuel as [|fuel IH]; intros i k; simpl; [lia|].
  destruct (Z.leb_spec N (win_end dim Tau dT i)) as [Hle|Hlt]; [lia|].
  destruct k as [|k]; intros Hk.
  - replace (i + Z.of_nat 0) with i by lia. exact Hlt.
  - replace (i + Z.of_nat (S k)) with (i + 1 + Z.of_nat k) by lia.
    apply IH. lia.
Qed.

Lemma stored_windows_stop (N dim : Z) (Tau dT : Q) (fuel : nat) (i : Z) :
  (stored_windows N dim Tau dT fuel i < fuel)%nat ->
  N <= win_end dim Tau dT (i + Z.of_nat (stored_windows N dim Tau dT fuel i)).
Proof.
  revert i. induction fuel as [|fuel IH]; intros i; simpl; [lia|].
  destruct (Z.leb_spec N (win_end dim Tau dT i)) as [Hle|Hlt]; intros Hc.
  - replace (i + Z.of_nat 0) with i by lia. exact Hle.
  - replace (i + Z.of_nat (S (stored_windows N dim Tau dT fuel (i + 1))))
      with (i + 1 + Z.of_nat (stored_windows N dim Tau dT fuel (i + 1))) by lia.
    apply IH. lia.
Qed.

(** The loop stops at window [k] exactly when [k] is the first window whose
    right bound reaches [N]. *)
Lemma stored_windows_first (N dim : Z) (Tau dT : Q) (fuel : nat) (i : Z) (k : nat) :
  (k < fuel)%nat ->
  (forall m, (m < k)%nat -> win_end dim Tau dT (i + Z.of_nat m) < N) ->
  N <= win_end dim Tau dT (i + Z.of_nat k) ->
  stored_windows N dim Tau dT fuel i = k.
Proof.
  intros Hk Hbefore Hat.
  pose proof (stored_windows_le N dim Tau dT fuel i) as Hle.
  destruct (Nat.lt_trichotomy (stored_windows N dim Tau dT fuel i) k) as [Hlt|[Heq|Hgt]].
  - pose proof (stored_windows_stop N dim Tau dT fuel i ltac:(lia)) as Hs.
    specialize (Hbefore _ Hlt). lia.
  - exact Heq.
  - pose proof (stored_windows_fit N dim Tau dT fuel i k Hgt). lia.
Qed.

(** ** What the loop computes *)

Section Loop.

Variable spline : list Z -> list Q -> list Q -> list Q.

(** With [i] rows stored and as many zero rows left as iterations remain,
    the loop ends with the stored rows followed by the rows of the windows
    that fit. *)
Lemma window_loop_rows (x : list Q) (dim : Z) (Tau dT : Q) :
  1 <= dim ->
  forall (fuel : nat) (i : Z) (stored zeros : matrix),
    0 <= i -> length stored = Z.to_nat i -> length zeros = fuel ->
    window_loop spline x dim Tau dT fuel i (stored ++ zeros) =
      inr (stored ++ (window_row spline x dim Tau dT <$>
             seqZ i (Z.of_nat (stored_windows (Z.of_nat (length x)) dim Tau dT fuel i)))).
Proof.
  intros Hdim. induction fuel as [|fuel IH]; intros i stored zeros Hi Hst Hz.
  - destruct zeros; [|discriminate]. cbn [window_loop stored_windows].
    rewrite seqZ_nil by lia. reflexivity.
  - destruct zeros as [|z zeros]; [discriminate|]. injection Hz as Hz.
    cbn [window_loop stored_windows].
    rewrite head_positions, last_positions by assumption.
    fold (win_start Tau dT i). fold (win_end dim Tau dT i).
    destruct (Z.leb_spec (Z.of_nat (length x)) (win_end dim Tau dT i)) as [Hle|Hlt].
    + rewrite seqZ_nil by lia. rewrite fmap_nil.
      rewrite take_app_length' by (symmetry; assumption).
      rewrite app_nil_r. reflexivity.
    + rewrite insert_app_r_alt by lia.
      replace (Z.to_nat i - length stored)%nat with 0%nat by lia.
      cbn [insert list_insert].
      fold (window_row spline x dim Tau dT i).
      rewrite (cons_middle _ stored zeros), app_assoc.
      rewrite IH by (try rewrite length_app; simpl; lia).
      rewrite (seqZ_cons i) by lia. rewrite fmap_cons, <- app_assoc. simpl.
      replace (Z.succ i) with (i + 1) by lia.
      rewrite Nat2Z.inj_succ, Z.pred_succ. reflexivity.
Qed.

(** Past the size guard, for [dim >= 1], the call prints nothing and
    returns the rows of windows [0 .. c-1], [c] being the number of stored
    windows. *)
Lemma getSlidingWindow_rows (x : list Q) (dim : Z) (Tau dT : Q) :
  1 <= dim -> 0 < NWindows x dim Tau dT -> ~ (dT == 0)%Q ->
  getSlidingWindow spline x dim Tau dT =
    Returned [] (window_row spline x dim Tau dT <$>
      seqZ 0 (Z.of_nat (stored_windows (Z.of_nat (length x)) dim Tau dT
                          (Z.to_nat (NWindows x dim Tau dT)) 0))).
Proof.
  intros Hdim HNW HdT. unfold getSlidingWindow.
  destruct (Qeq_bool dT 0) eqn:E; [apply Qeq_bool_iff in E; contradiction|].
  destruct (Z.leb_spec (NWindows x dim Tau dT) 0) as [?|_]; [lia|].
  unfold np_zeros.
  destruct (Z.ltb_spec (NWindows x dim Tau dT) 0); [lia|].
  destruct (Z.ltb_spec dim 0); [lia|]. simpl.
  pose proof (window_loop_rows x dim Tau dT Hdim (Z.to_nat (NWindows x dim Tau dT)) 0 []
    (replicate (Z.to_nat (NWindows x dim Tau dT)) (replicate (Z.to_nat dim) 0%Q))
    ltac:(lia) eq_refl (length_replicate _ _)) as Hloop.
  rewrite app_nil_l in Hloop. rewrite Hloop. reflexivity.
Qed.

(** The size guard: whenever the window count is not positive, the call
    prints the error line and hands back a 3-row array of zeros. *)
Lemma getSlidingWindow_placeholder (x : list Q) (dim : Z) (Tau dT : Q) :
  0 <= dim -> NWindows x dim Tau dT <= 0 -> ~ (dT == 0)%Q ->
  getSlidingWindow spline x dim Tau dT =
    Returned [too_large_msg] (replicate 3 (replicate (Z.to_nat dim) 0%Q)).
Proof.
  intros Hdim HNW HdT. unfold getSlidingWindow.
  destruct (Qeq_bool dT 0) eqn:E; [apply Qeq_bool_iff in E; contradiction|].
  destruct (Z.leb_spec (NWindows x dim Tau dT) 0) as [_|?]; [|lia].
  unfold np_zeros. destruct (Z.ltb_spec dim 0); [lia|]. reflexivity.
Qed.

(** A returned array after a positive window count means [dim >= 1]. *)
Lemma getSlidingWindow_returned_dim (x : list Q) (dim : Z) (Tau dT : Q)
    (out : list string) (X : matrix) :
  0 < NWindows x dim Tau dT ->
  getSlidingWindow spline x dim Tau dT = Returned out X ->
  1 <= dim /\ ~ (dT == 0)%Q.
Proof.
  intros HNW. unfold getSlidingWindow.
  destruct (Qeq_bool dT 0) eqn:E; [discriminate|].
  assert (HdT : ~ (dT == 0)%Q) by (intros H; apply Qeq_bool_iff in H; congruence).
  destruct (Z.leb_spec (NWindows x dim Tau dT) 0) as [?|_]; [lia|].
  unfold np_zeros.
  destruct (Z.ltb_spec (NWindows x dim Tau dT) 0); [lia|].
  destruct (Z.ltb_spec dim 0); simpl; [discriminate|].
  destruct (Z.eq_dec dim 0) as [->|Hne]; [|intros _; split; [lia|assumption]].
  destruct (Z.to_nat (NWindows x 0 Tau dT)) eqn:En; [lia|].
  simpl. discriminate.
Qed.

End Loop.

(** ** The window count *)


Lemma NWindows_short (x : list Q) (dim : Z) (Tau dT : Q) :
  (0 < dT)%Q -> (inject_Z (Z.of_nat (length x)) <= inject_Z dim * Tau)%Q ->
  NWindows x dim Tau dT <= 0.
Proof.
  intros HdT Hshort. unfold NWindows.
  change 0 with (Qfloor 0). apply Qfloor_resp_le.
  unfold Qdiv.
  assert (Hinv : (0 < / dT)%Q) by now apply Qinv_lt_0_compat.
  apply Qle_trans with (0 * / dT)%Q.
  - apply Qmult_le_compat_r; [lra | now apply Qlt_le_weak].
  - rewrite Qmult_0_l. apply Qle_refl.
Qed.

(** ** Rows of the embedding *)

Section Rows.

Variable spline : list Z -> list Q -> list Q -> list Q.

(** An emitted row is the row of a stored window. *)
Lemma emits_inv (x : list Q) (dim : Z) (Tau dT : Q) (i : nat) (row : list Q) :
  emits spline x dim Tau dT i row ->
  1 <= dim /\ ~ (dT == 0)%Q /\
  (i < stored_windows (Z.of_nat (length x)) dim Tau dT
         (Z.to_nat (NWindows x dim Tau dT)) 0)%nat /\
  Z.of_nat i < NWindows x dim Tau dT /\
  win_end dim Tau dT (Z.of_nat i) < Z.of_nat (length x) /\
  row = window_row spline x dim Tau dT (Z.of_nat i).
Proof.
  intros (HNW & out & X & Hret & Hrow).
  destruct (getSlidingWindow_returned_dim spline x dim Tau dT out X HNW Hret)
    as [Hdim HdT].
  rewrite getSlidingWindow_rows in Hret by assumption.
  injection Hret as _ <-.
  rewrite list_lookup_fmap in Hrow.
  destruct (seqZ 0 _ !! i) as [z|] eqn:Hz; [|discriminate].
  apply lookup_seqZ in Hz as [-> Hi]. injection Hrow as <-.
  assert (Hc : (i < stored_windows (Z.of_nat (length x)) dim Tau dT
                     (Z.to_nat (NWindows x dim Tau dT)) 0)%nat) by lia.
  pose proof (stored_windows_le (Z.of_nat (length x)) dim Tau dT
                (Z.to_nat (NWindows x dim Tau dT)) 0).
  pose proof (stored_windows_fit _ _ _ _ _ _ _ Hc) as Hfit.
  repeat split; try assumption; try lia.
Qed.

(** For a valid parameter set the slices of an emitted row are taken without
    clamping: [0 <= start <= end <= N - 1]. *)
Lemma emits_bounds (x : list Q) (dim : Z) (Tau dT : Q) (i : nat) (row : list Q) :
  (0 <= Tau)%Q -> (0 <= dT)%Q ->
  emits spline x dim Tau dT i row ->
  0 <= win_start Tau dT (Z.of_nat i) /\
  win_start Tau dT (Z.of_nat i) + 2 <= win_end dim Tau dT (Z.of_nat i) /\
  win_end dim Tau dT (Z.of_nat i) <= Z.of_nat (length x) - 1.
Proof.
  intros HT Hd He. apply emits_inv in He as (Hdim & _ & _ & _ & Hend & _).
  pose proof (win_start_nonneg Tau dT (Z.of_nat i) Hd ltac:(lia)).
  pose proof (win_start_le_end dim Tau dT (Z.of_nat i) Hdim HT).
  lia.
Qed.

End Rows.

(** ** The piecewise-linear routine meets the contract *)

Lemma linear_at_knot (yk : list Q) :
  forall (a : Z) (k : nat) (q y : Q),
    yk !! k = Some y ->
    (q == inject_Z (a + Z.of_nat k))%Q ->
    linear_at (seqZ a (Z.of_nat (length yk))) yk q = y.
Proof.
  induction yk as [|y0 yk IH]; intros a k q y Hk Hq; [discriminate|].
  rewrite seqZ_cons by (simpl; lia). cbn [linear_at].
  destruct k as [|k].
  - injection Hk as <-.
    assert (Hle : (q <= inject_Z a)%Q).
    { rewrite Hq. rewrite <- Zle_Qle. lia. }
    apply Qle_bool_iff in Hle. rewrite Hle. reflexivity.
  - cbn in Hk.
    assert (Hgt : ~ (q <= inject_Z a)%Q).
    { rewrite Hq. rewrite <- Zle_Qle. lia. }
    destruct (Qle_bool q (inject_Z a)) eqn:E; [apply Qle_bool_iff in E; contradiction|].
    replace (Z.pred (Z.of_nat (length (y0 :: yk)))) with (Z.of_nat (length yk))
      by (simpl; lia).
    pose proof (IH (Z.succ a) k q y Hk) as IHk.
    destruct yk as [|y1 yk]; [discriminate|].
    rewrite seqZ_cons in * by (simpl; lia).
    assert (Hge : (inject_Z (Z.succ a) <= q)%Q).
    { rewrite Hq. rewrite <- Zle_Qle. lia. }
    apply Qle_bool_iff in Hge. rewrite Hge.
    apply IHk. rewrite Hq. replace (Z.succ a + Z.of_nat k) with (a + Z.of_nat (S k)) by lia.
    reflexivity.
Qed.

Lemma linear_interp_interpolant : interpolant linear_interp.
Proof.
  split.
  - intros xk yk xnew. unfold linear_interp. apply length_fmap.
  - intros a yk xnew j k q y Hj Hk Hq. unfold linear_interp.
    rewrite list_lookup_fmap, Hj. simpl. f_equal.
    now apply linear_at_knot with (k := k).
Qed.

(** ** The size guard (claims C1, C3, C8) *)

(** C1, as the routine behaves: for [dim >= 0], [dT > 0] and
    [dim * Tau >= N] the call prints the error line and returns, as an
    ordinary value, the zero-filled 3 x dim array; no failure is raised. *)
Theorem getSlidingWindow_short_signal
    (spline : list Z -> list Q -> list Q -> list Q)
    (x : list Q) (dim : Z) (Tau dT : Q) :
  0 <= dim -> (0 < dT)%Q ->
  (inject_Z (Z.of_nat (length x)) <= inject_Z dim * Tau)%Q ->
  getSlidingWindow spline x dim Tau dT =
    Returned [too_large_msg] (replicate 3 (replicate (Z.to_nat dim) 0%Q)).
Proof.
  intros Hdim HdT Hshort. apply getSlidingWindow_placeholder.
  - assumption.
  - now apply NWindows_short.
  - intros H. rewrite H in HdT. now apply Qlt_irrefl in HdT.
Qed.

Lemma getSlidingWindow_short_signal_witness :
  getSlidingWindow linear_interp pair2 2 1 1 =
    Returned [too_large_msg] [[0; 0]; [0; 0]; [0; 0]]%Q.
Proof.
  apply (getSlidingWindow_short_signal linear_interp pair2 2 1 1);
    [lia | reflexivity | vm_compute; discriminate].
Defined.

(** C1 as stated fails: with a signal of length 2, [dim = 2], [Tau = 1]
    (so [dim * Tau >= N]) the call does return a matrix, the zero-filled
    3 x 2 array, and raises nothing. *)
Lemma short_signal_returns_zero_matrix :
  (inject_Z (Z.of_nat (length pair2)) <= inject_Z 2 * 1)%Q /\
  getSlidingWindow linear_interp pair2 2 1 1 =
    Returned [too_large_msg] [[0; 0]; [0; 0]; [0; 0]]%Q /\
  forall out e, getSlidingWindow linear_interp pair2 2 1 1 <> Raised out e.
Proof.
  split; [vm_compute; discriminate|]. split; [reflexivity|].
  intros out e. vm_compute. discriminate.
Qed.






(** ** Parameters that the specification calls invalid (claim C5) *)




(** ** Truncation (claims C4 and C10) *)

(** C4: for valid parameters, if window [i] is reached (every earlier window
    has its right bound below [N]) and its right bound [end] is at least [N],
    the call returns, printing nothing, exactly the [i] rows of windows
    [0 .. i-1]. *)
Theorem truncation_returns_computed_rows
    (spline : list Z -> list Q -> list Q -> list Q)
    (x : list Q) (dim : Z) (Tau dT : Q) (i : nat) :
  1 <= dim -> (0 < Tau)%Q -> (0 < dT)%Q ->
  Z.of_nat i < NWindows x dim Tau dT ->
  (forall k, (k < i)%nat -> win_end dim Tau dT (Z.of_nat k) < Z.of_nat (length x)) ->
  Z.of_nat (length x) <= win_end dim Tau dT (Z.of_nat i) ->
  exists X,
    getSlidingWindow spline x dim Tau dT = Returned [] X /\
    length X = i /\
    X = window_row spline x dim Tau dT <$> seqZ 0 (Z.of_nat i).
Proof.
  intros Hdim HT HdT Hi Hbefore Hat.
  assert (Hnz : ~ (dT == 0)%Q).
  { intros H. rewrite H in HdT. now apply Qlt_irrefl in HdT. }
  eexists. split; [apply getSlidingWindow_rows; try assumption; lia|].
  rewrite (stored_windows_first (Z.of_nat (length x)) dim Tau dT
             (Z.to_nat (NWindows x dim Tau dT)) 0 i) by (try assumption; lia).
  split; [|reflexivity].
  rewrite length_fmap, length_seqZ. lia.
Qed.

Lemma truncation_returns_computed_rows_witness :
  exists X,
    getSlidingWindow linear_interp ramp5 2 1 1 = Returned [] X /\
    length X = 2%nat /\
    X = window_row linear_interp ramp5 2 1 1 <$> seqZ 0 (Z.of_nat 2).
Proof.
  apply (truncation_returns_computed_rows linear_interp ramp5 2 1 1 2).
  - lia.
  - reflexivity.
  - reflexivity.
  - reflexivity.
  - intros k Hk. destruct k as [|[|k]]; [reflexivity | reflexivity | lia].
  - vm_compute. discriminate.
Defined.

(** C10: for valid parameters and a positive window count [M], the right
    bound [end] is nondecreasing in the window index, and the returned rows
    are those of windows [0 .. c-1] for the [c <= M] such that, among the
    candidate windows [0 .. M-1], window [i] has [end < N] exactly when
    [i < c]: a contiguous prefix that leaves out no fitting window. *)
Theorem emitted_rows_are_the_fitting_prefix
    (spline : list Z -> list Q -> list Q -> list Q)
    (x : list Q) (dim : Z) (Tau dT : Q) :
  1 <= dim -> (0 < Tau)%Q -> (0 < dT)%Q -> 0 < NWindows x dim Tau dT ->
  (forall i i', i <= i' -> win_end dim Tau dT i <= win_end dim Tau dT i') /\
  exists c : nat,
    Z.of_nat c <= NWindows x dim Tau dT /\
    getSlidingWindow spline x dim Tau dT =
      Returned [] (window_row spline x dim Tau dT <$> seqZ 0 (Z.of_nat c)) /\
    forall i, 0 <= i < NWindows x dim Tau dT ->
      (i < Z.of_nat c <-> win_end dim Tau dT i < Z.of_nat (length x)).
Proof.
  intros Hdim HT HdT HNW.
  assert (Hnz : ~ (dT == 0)%Q).
  { intros H. rewrite H in HdT. now apply Qlt_irrefl in HdT. }
  assert (Hmono : forall i i', i <= i' -> win_end dim Tau dT i <= win_end dim Tau dT i').
  { intros i i'. apply win_end_mono. now apply Qlt_le_weak. }
  split; [exact Hmono|].
  set (N := Z.of_nat (length x)).
  set (fuel := Z.to_nat (NWindows x dim Tau dT)).
  exists (stored_windows N dim Tau dT fuel 0).
  pose proof (stored_windows_le N dim Tau dT fuel 0) as Hle.
  split; [subst fuel; lia|].
  split; [apply getSlidingWindow_rows; assumption|].
  intros i Hi. split.
  - intros Hlt.
    pose proof (stored_windows_fit N dim Tau dT fuel 0 (Z.to_nat i) ltac:(lia)) as Hfit.
    replace (0 + Z.of_nat (Z.to_nat i)) with i in Hfit by lia. exact Hfit.
  - intros Hfit.
    destruct (Z.lt_ge_cases i (Z.of_nat (stored_windows N dim Tau dT fuel 0)))
      as [?|Hge]; [assumption|].
    pose proof (stored_windows_stop N dim Tau dT fuel 0 ltac:(subst fuel; lia)) as Hstop.
    rewrite Z.add_0_l in Hstop. specialize (Hmono _ _ Hge). lia.
Qed.

Lemma emitted_rows_are_the_fitting_prefix_witness :
  (forall i i', i <= i' -> win_end 2 1 (1 # 2) i <= win_end 2 1 (1 # 2) i') /\
  exists c : nat,
    Z.of_nat c <= NWindows ramp5 2 1 (1 # 2) /\
    getSlidingWindow linear_interp ramp5 2 1 (1 # 2) =
      Returned [] (window_row linear_interp ramp5 2 1 (1 # 2) <$> seqZ 0 (Z.of_nat c)) /\
    forall i, 0 <= i < NWindows ramp5 2 1 (1 # 2) ->
      (i < Z.of_nat c <-> win_end 2 1 (1 # 2) i < Z.of_nat (length ramp5)).
Proof.
  apply (emitted_rows_are_the_fitting_prefix linear_interp ramp5 2 1 (1 # 2));
    [lia | reflexivity | reflexivity | reflexivity].
Defined.

(** ** The rows themselves (claims C2, C9, C7, C6) *)

(** C2: for valid parameters, row [i] of the embedding matrix is the spline
    fitted through the integer knots [start .. end] and the samples
    [x[start] .. x[end]], with [start = floor(p_0)] and
    [end = ceil(p_{dim-1}) + 2], evaluated at the [dim] positions
    [p_j = dT*i + Tau*j]. *)
Theorem row_is_spline_through_samples
    (spline : list Z -> list Q -> list Q -> list Q)
    (x : list Q) (dim : Z) (Tau dT : Q) (i : nat) (row : list Q) :
  1 <= dim -> (0 < Tau)%Q -> (0 < dT)%Q ->
  emits spline x dim Tau dT i row ->
  exists samples : list Q,
    length samples =
      Z.to_nat (win_end dim Tau dT (Z.of_nat i) - win_start Tau dT (Z.of_nat i) + 1) /\
    (forall k, (k < length samples)%nat ->
       is_Some (samples !! k) /\
       samples !! k = x !! (Z.to_nat (win_start Tau dT (Z.of_nat i)) + k)%nat) /\
    row = spline
            (seqZ (win_start Tau dT (Z.of_nat i))
                  (win_end dim Tau dT (Z.of_nat i) - win_start Tau dT (Z.of_nat i) + 1))
            samples
            (position Tau dT (Z.of_nat i) <$> seqZ 0 dim).
Proof.
  intros Hdim HT HdT He.
  destruct (emits_bounds spline x dim Tau dT i row
              (Qlt_le_weak _ _ HT) (Qlt_le_weak _ _ HdT) He) as (Hs & Hse & HeN).
  apply emits_inv in He as (_ & _ & _ & _ & _ & ->).
  set (s := win_start Tau dT (Z.of_nat i)) in *.
  set (e := win_end dim Tau dT (Z.of_nat i)) in *.
  assert (Hlen : length (py_slice x s (e + 1)) = Z.to_nat (e - s + 1)).
  { rewrite py_slice_length by lia. f_equal. lia. }
  exists (py_slice x s (e + 1)). split; [exact Hlen|]. split.
  - intros k Hk. split; [now apply lookup_lt_is_Some_2|].
    apply py_slice_lookup; lia.
  - unfold window_row. fold s e.
    rewrite py_slice_arange by lia.
    replace (e + 1 - s) with (e - s + 1) by lia. reflexivity.
Qed.

Lemma row_is_spline_through_samples_witness :
  exists samples : list Q,
    length samples = Z.to_nat (win_end 2 1 (1 # 2) 1 - win_start 1 (1 # 2) 1 + 1) /\
    (forall k, (k < length samples)%nat ->
       is_Some (samples !! k) /\
       samples !! k = ramp5 !! (Z.to_nat (win_start 1 (1 # 2) 1) + k)%nat) /\
    [3 # 2; 5 # 2]%Q =
      linear_interp (seqZ (win_start 1 (1 # 2) 1)
                          (win_end 2 1 (1 # 2) 1 - win_start 1 (1 # 2) 1 + 1))
                    samples
                    (position 1 (1 # 2) 1 <$> seqZ 0 2).
Proof.
  apply (row_is_spline_through_samples linear_interp ramp5 2 1 (1 # 2) 1 [3 # 2; 5 # 2]%Q);
    [lia | reflexivity | reflexivity |].
  split; [reflexivity|]. eexists _, _. split; reflexivity.
Defined.

(** C9: for valid parameters, the slice read for an emitted row has
    [0 <= start <= end <= N - 1]; it is taken without clamping, holds the
    [end - start + 1] samples [x[start] .. x[end]], and every index in
    [start .. end] is an index of the signal. *)
Theorem signal_reads_in_bounds
    (spline : list Z -> list Q -> list Q -> list Q)
    (x : list Q) (dim : Z) (Tau dT : Q) (i : nat) (row : list Q) :
  1 <= dim -> (0 < Tau)%Q -> (0 < dT)%Q ->
  emits spline x dim Tau dT i row ->
  0 <= win_start Tau dT (Z.of_nat i) /\
  win_start Tau dT (Z.of_nat i) <= win_end dim Tau dT (Z.of_nat i) /\
  win_end dim Tau dT (Z.of_nat i) <= Z.of_nat (length x) - 1 /\
  py_slice x (win_start Tau dT (Z.of_nat i)) (win_end dim Tau dT (Z.of_nat i) + 1) =
    take (Z.to_nat (win_end dim Tau dT (Z.of_nat i) - win_start Tau dT (Z.of_nat i) + 1))
         (drop (Z.to_nat (win_start Tau dT (Z.of_nat i))) x) /\
  length (py_slice x (win_start Tau dT (Z.of_nat i)) (win_end dim Tau dT (Z.of_nat i) + 1)) =
    Z.to_nat (win_end dim Tau dT (Z.of_nat i) - win_start Tau dT (Z.of_nat i) + 1) /\
  forall k, win_start Tau dT (Z.of_nat i) <= k <= win_end dim Tau dT (Z.of_nat i) ->
    is_Some (x !! Z.to_nat k).
Proof.
  intros Hdim HT HdT He.
  destruct (emits_bounds spline x dim Tau dT i row
              (Qlt_le_weak _ _ HT) (Qlt_le_weak _ _ HdT) He) as (Hs & Hse & HeN).
  set (s := win_start Tau dT (Z.of_nat i)) in *.
  set (e := win_end dim Tau dT (Z.of_nat i)) in *.
  split; [lia|]. split; [lia|]. split; [lia|]. split; [|split].
  - rewrite py_slice_in_range by lia. do 2 f_equal. lia.
  - rewrite py_slice_length by lia. f_equal. lia.
  - intros k Hk. apply lookup_lt_is_Some_2. lia.
Qed.

Lemma signal_reads_in_bounds_witness :
  0 <= win_start 1 (1 # 2) 2 /\
  win_start 1 (1 # 2) 2 <= win_end 2 1 (1 # 2) 2 /\
  win_end 2 1 (1 # 2) 2 <= Z.of_nat (length ramp5) - 1 /\
  py_slice ramp5 (win_start 1 (1 # 2) 2) (win_end 2 1 (1 # 2) 2 + 1) =
    take (Z.to_nat (win_end 2 1 (1 # 2) 2 - win_start 1 (1 # 2) 2 + 1))
         (drop (Z.to_nat (win_start 1 (1 # 2) 2)) ramp5) /\
  length (py_slice ramp5 (win_start 1 (1 # 2) 2) (win_end 2 1 (1 # 2) 2 + 1)) =
    Z.to_nat (win_end 2 1 (1 # 2) 2 - win_start 1 (1 # 2) 2 + 1) /\
  forall k, win_start 1 (1 # 2) 2 <= k <= win_end 2 1 (1 # 2) 2 ->
    is_Some (ramp5 !! Z.to_nat k).
Proof.
  apply (signal_reads_in_bounds linear_interp ramp5 2 1 (1 # 2) 2 [2; 3]%Q);
    [lia | reflexivity | reflexivity |].
  split; [reflexivity|]. eexists _, _. split; reflexivity.
Defined.

(** C7: for valid parameters and a routine that yields one value per query
    position, an emitted row is the fully computed row of its window (it has
    [dim] entries), and each of its positions [p_j] satisfies
    [0 <= p_j <= N - 3], hence lies in [[0, N-1]] and stays below [N - 1]. *)
Theorem emitted_positions_within_signal
    (spline : list Z -> list Q -> list Q -> list Q)
    (x : list Q) (dim : Z) (Tau dT : Q) (i : nat) (row : list Q) :
  (forall xk yk xnew, length (spline xk yk xnew) = length xnew) ->
  1 <= dim -> (0 < Tau)%Q -> (0 < dT)%Q ->
  emits spline x dim Tau dT i row ->
  row = window_row spline x dim Tau dT (Z.of_nat i) /\
  length row = Z.to_nat dim /\
  forall j, 0 <= j < dim ->
    (0 <= position Tau dT (Z.of_nat i) j)%Q /\
    (position Tau dT (Z.of_nat i) j <= inject_Z (Z.of_nat (length x) - 3))%Q /\
    (position Tau dT (Z.of_nat i) j < inject_Z (Z.of_nat (length x) - 1))%Q.
Proof.
  intros Hshape Hdim HT HdT He.
  apply Qlt_le_weak in HT, HdT.
  destruct (emits_bounds spline x dim Tau dT i row HT HdT He) as (Hs & Hse & HeN).
  apply emits_inv in He as (_ & _ & _ & _ & _ & ->).
  split; [reflexivity|]. split.
  - unfold window_row. rewrite Hshape. apply positions_length.
  - intros j Hj.
    destruct (position_in_window dim Tau dT (Z.of_nat i) j HT Hj) as [_ Hup].
    assert (H3 : (position Tau dT (Z.of_nat i) j <= inject_Z (Z.of_nat (length x) - 3))%Q).
    { eapply Qle_trans; [exact Hup|]. rewrite <- Zle_Qle. lia. }
    split; [apply position_nonneg; (assumption || lia)|]. split; [exact H3|].
    eapply Qle_lt_trans; [exact H3|]. rewrite <- Zlt_Qlt. lia.
Qed.

Lemma emitted_positions_within_signal_witness :
  [3 # 2; 5 # 2]%Q = window_row linear_interp ramp5 2 1 (1 # 2) 1 /\
  length [3 # 2; 5 # 2]%Q = Z.to_nat 2 /\
  forall j, 0 <= j < 2 ->
    (0 <= position 1 (1 # 2) 1 j)%Q /\
    (position 1 (1 # 2) 1 j <= inject_Z (Z.of_nat (length ramp5) - 3))%Q /\
    (position 1 (1 # 2) 1 j < inject_Z (Z.of_nat (length ramp5) - 1))%Q.
Proof.
  apply (emitted_positions_within_signal linear_interp ramp5 2 1 (1 # 2) 1 [3 # 2; 5 # 2]%Q);
    [exact (interp_length _ linear_interp_interpolant)
    | lia | reflexivity | reflexivity |].
  split; [reflexivity|]. eexists _, _. split; reflexivity.
Defined.




(** * Further properties of the routine *)

(** ** Floor and ceiling against integers *)

Lemma Qceiling_le_iff (q : Q) (z : Z) :
  Qceiling q <= z <-> (q <= inject_Z z)%Q.
Proof.
  split; intros H.
  - eapply Qle_trans; [apply Qle_ceiling|]. now rewrite <- Zle_Qle.
  - apply Qceiling_resp_le in H. now rewrite Qceiling_Z in H.
Qed.

Lemma Qfloor_ge_iff (q : Q) (z : Z) :
  z <= Qfloor q <-> (inject_Z z <= q)%Q.
Proof.
  split; intros H.
  - eapply Qle_trans; [|apply Qfloor_le]. now rewrite <- Zle_Qle.
  - apply Qfloor_resp_le in H. now rewrite Qfloor_Z in H.
Qed.

Lemma inject_Z_pred (z : Z) : (inject_Z (z - 1) == inject_Z z - 1)%Q.
Proof.
  replace (z - 1) with (z + -1) by lia. rewrite inject_Z_plus.
  change (inject_Z (-1)) with (- (1))%Q. ring.
Qed.

Lemma inject_Z_minus3 (z : Z) : (inject_Z (z - 3) == inject_Z z - 3)%Q.
Proof.
  replace (z - 3) with (z + -3) by lia. rewrite inject_Z_plus.
  change (inject_Z (-3)) with (- (3))%Q. ring.
Qed.

(** ** Which windows fit *)

(** Window [i] passes the test [end < N] exactly when
    [i <= floor((N - 3 - Tau*(dim-1)) / dT)]. *)
Lemma win_end_fits_iff (N dim : Z) (Tau dT : Q) (i : Z) :
  (0 < dT)%Q ->
  win_end dim Tau dT i < N <->
  i <= Qfloor ((inject_Z N - 3 - Tau * inject_Z (dim - 1)) / dT).
Proof.
  intros HdT. unfold win_end.
  assert (Hnz : ~ (dT == 0)%Q).
  { intros H. rewrite H in HdT. now apply Qlt_irrefl in HdT. }
  rewrite Qfloor_ge_iff.
  transitivity (Qceiling (position Tau dT i (dim - 1)) <= N - 3); [lia|].
  rewrite Qceiling_le_iff, inject_Z_minus3. unfold position. split; intros H.
  - apply Qle_shift_div_l; [assumption|].
    rewrite (Qmult_comm (inject_Z i) dT). lra.
  - apply (Qmult_le_compat_r _ _ dT) in H; [|now apply Qlt_le_weak].
    rewrite (Qmult_comm (_ / dT) dT), Qmult_div_r in H by assumption.
    rewrite (Qmult_comm (inject_Z i) dT) in H. lra.
Qed.

(** With a stride that is not negative, the loop stores window [k] exactly
    when its right bound is below [N]. *)
Lemma stored_windows_iff (N dim : Z) (Tau dT : Q) (fuel k : nat) :
  (0 <= dT)%Q -> (k < fuel)%nat ->
  (k < stored_windows N dim Tau dT fuel 0)%nat <->
  win_end dim Tau dT (Z.of_nat k) < N.
Proof.
  intros HdT Hk. split.
  - intros Hlt. exact (stored_windows_fit N dim Tau dT fuel 0 k Hlt).
  - intros Hfit.
    destruct (Nat.lt_ge_cases k (stored_windows N dim Tau dT fuel 0)) as [?|Hge];
      [assumption|].
    pose proof (stored_windows_stop N dim Tau dT fuel 0 ltac:(lia)) as Hstop.
    rewrite Z.add_0_l in Hstop.
    pose proof (win_end_mono dim Tau dT
                  (Z.of_nat (stored_windows N dim Tau dT fuel 0)) (Z.of_nat k)
                  HdT ltac:(lia)).
    lia.
Qed.

(** The loop's count in closed form. *)
Lemma stored_windows_closed_form (N dim : Z) (Tau dT : Q) (M : Z) :
  (0 < dT)%Q -> 0 <= M ->
  Z.of_nat (stored_windows N dim Tau dT (Z.to_nat M) 0) =
    Z.min M (fitting_windows N dim Tau dT).
Proof.
  intros HdT HM. unfold fitting_windows.
  set (F := Qfloor ((inject_Z N - 3 - Tau * inject_Z (dim - 1)) / dT)).
  set (c := stored_windows N dim Tau dT (Z.to_nat M) 0).
  pose proof (stored_windows_le N dim Tau dT (Z.to_nat M) 0) as Hle. fold c in Hle.
  assert (Hiff : forall k : nat, (k < Z.to_nat M)%nat -> (k < c)%nat <-> Z.of_nat k <= F).
  { intros k Hk. unfold c, F.
    rewrite stored_windows_iff by (try apply Qlt_le_weak; assumption).
    now apply win_end_fits_iff. }
  destruct (Nat.eq_dec c (Z.to_nat M)) as [Heq|Hne].
  - destruct c as [|c'].
    + lia.
    + pose proof (proj1 (Hiff c' ltac:(lia)) ltac:(lia)). lia.
  - pose proof (Hiff c ltac:(lia)) as Hc.
    assert (~ Z.of_nat c <= F) by (intros H; apply Hc in H; lia).
    destruct c as [|c'].
    + lia.
    + pose proof (proj1 (Hiff c' ltac:(lia)) ltac:(lia)). lia.
Qed.

(** ** The shape of the result *)



Lemma Qfloor_plus_le (a b : Q) : Qfloor (a + b) <= Qfloor a + Qceiling b.
Proof.
  assert (H : (inject_Z (Qfloor (a + b)) < inject_Z (Qfloor a + 1 + Qceiling b))%Q).
  { eapply Qle_lt_trans; [apply Qfloor_le|].
    rewrite inject_Z_plus.
    pose proof (Qlt_floor a). pose proof (Qle_ceiling b). lra. }
  rewrite <- Zlt_Qlt in H. lia.
Qed.

(** The candidate count exceeds the index of the last fitting window by at
    most [ceil((3 - Tau)/dT)]. *)
Lemma NWindows_le_fitting (x : list Q) (dim : Z) (Tau dT : Q) :
  (0 < dT)%Q ->
  NWindows x dim Tau dT <=
    Qfloor ((inject_Z (Z.of_nat (length x)) - 3 - Tau * inject_Z (dim - 1)) / dT)
    + Qceiling ((3 - Tau) / dT).
Proof.
  intros HdT.
  assert (Hnz : ~ (dT == 0)%Q).
  { intros H. rewrite H in HdT. now apply Qlt_irrefl in HdT. }
  unfold NWindows.
  rewrite (Qfloor_comp _
    ((inject_Z (Z.of_nat (length x)) - 3 - Tau * inject_Z (dim - 1)) / dT
     + (3 - Tau) / dT)).
  - apply Qfloor_plus_le.
  - rewrite inject_Z_pred. field. exact Hnz.
Qed.



(** With [Tau + dT >= 3] every candidate window fits. *)
Lemma stored_windows_wide (x : list Q) (dim : Z) (Tau dT : Q) :
  (0 < dT)%Q -> (3 <= Tau + dT)%Q -> 0 < NWindows x dim Tau dT ->
  Z.of_nat (stored_windows (Z.of_nat (length x)) dim Tau dT
              (Z.to_nat (NWindows x dim Tau dT)) 0) = NWindows x dim Tau dT.
Proof.
  intros HdT Hwide HNW.
  rewrite stored_windows_closed_form by (assumption || lia).
  pose proof (NWindows_le_fitting x dim Tau dT HdT) as Hle.
  assert (Hc : Qceiling ((3 - Tau) / dT) <= 1).
  { apply Qceiling_le_iff. apply Qle_shift_div_r; [assumption|].
    change (inject_Z 1) with 1%Q. lra. }
  unfold fitting_windows. lia.
Qed.



(** X4: past the size guard (with [dim >= 1] and [dT > 0]) the call returns
    an array with no rows at all, and prints nothing, exactly when
    [N <= ceil(Tau*(dim-1)) + 2]. *)
Theorem empty_embedding_iff
    (spline : list Z -> list Q -> list Q -> list Q)
    (x : list Q) (dim : Z) (Tau dT : Q) :
  1 <= dim -> (0 < dT)%Q -> 0 < NWindows x dim Tau dT ->
  getSlidingWindow spline x dim Tau dT = Returned [] [] <->
  Z.of_nat (length x) <= Qceiling (Tau * inject_Z (dim - 1)) + 2.
Proof.
  intros Hdim HdT HNW.
  assert (Hnz : ~ (dT == 0)%Q).
  { intros H. rewrite H in HdT. now apply Qlt_irrefl in HdT. }
  assert (Hend : win_end dim Tau dT 0 = Qceiling (Tau * inject_Z (dim - 1)) + 2).
  { unfold win_end, position. f_equal. apply Qceiling_comp.
    change (inject_Z 0) with 0%Q. ring. }
  rewrite <- Hend.
  rewrite getSlidingWindow_rows by assumption.
  set (c := stored_windows _ dim Tau dT _ 0).
  pose proof (stored_windows_iff (Z.of_nat (length x)) dim Tau dT
                (Z.to_nat (NWindows x dim Tau dT)) 0
                (Qlt_le_weak _ _ HdT) ltac:(lia)) as Hiff.
  fold c in Hiff. change (Z.of_nat 0) with 0 in Hiff.
  split.
  - intros Heq. injection Heq as Heq.
    apply (f_equal length) in Heq.
    rewrite length_fmap, length_seqZ in Heq. simpl in Heq.
    destruct (Z.lt_ge_cases (win_end dim Tau dT 0) (Z.of_nat (length x))) as [Hlt|?];
      [|assumption].
    apply Hiff in Hlt. lia.
  - intros Hge. assert (c = 0%nat) as ->.
    { destruct c; [reflexivity|]. assert (0 < S c)%nat as H by lia.
      apply Hiff in H. lia. }
    reflexivity.
Qed.

Lemma empty_embedding_iff_witness :
  getSlidingWindow linear_interp pair2 1 1 1 = Returned [] [] <->
  Z.of_nat (length pair2) <= Qceiling (1 * inject_Z (1 - 1)) + 2.
Proof.
  apply (empty_embedding_iff linear_interp pair2 1 1 1);
    [lia | reflexivity | reflexivity].
Defined.

(** ** What a row depends on *)

Lemma py_slice_agree {A} (l l' : list A) (a b : Z) :
  0 <= a -> a <= b -> b <= Z.of_nat (length l) -> b <= Z.of_nat (length l') ->
  (forall k, a <= k < b -> l !! Z.to_nat k = l' !! Z.to_nat k) ->
  py_slice l a b = py_slice l' a b.
Proof.
  intros Ha Hab Hb Hb' Hagree. apply list_eq. intros k.
  destruct (Nat.lt_ge_cases k (Z.to_nat (b - a))) as [Hk|Hk].
  - rewrite !py_slice_lookup by assumption.
    replace (Z.to_nat a + k)%nat with (Z.to_nat (a + Z.of_nat k)) by lia.
    apply Hagree. lia.
  - rewrite !(proj2 (lookup_ge_None _ _)); [reflexivity| |];
      rewrite py_slice_length by assumption; lia.
Qed.

Lemma NWindows_length (x x' : list Q) (dim : Z) (Tau dT : Q) :
  length x = length x' -> NWindows x dim Tau dT = NWindows x' dim Tau dT.
Proof. intros H. unfold NWindows. now rewrite H. Qed.

(** The window count does not shrink when the signal gets longer. *)
Lemma NWindows_mono (x x' : list Q) (dim : Z) (Tau dT : Q) :
  (0 < dT)%Q -> (length x <= length x')%nat ->
  NWindows x dim Tau dT <= NWindows x' dim Tau dT.
Proof.
  intros HdT Hlen. unfold NWindows. apply Qfloor_resp_le.
  unfold Qdiv. apply Qmult_le_compat_r.
  - assert (inject_Z (Z.of_nat (length x)) <= inject_Z (Z.of_nat (length x')))%Q
      by (rewrite <- Zle_Qle; lia).
    lra.
  - apply Qlt_le_weak. now apply Qinv_lt_0_compat.
Qed.

Section Locality.

Variable spline : list Z -> list Q -> list Q -> list Q.

(** Two signals that agree on [start .. end] of a window that fits both
    give that window the same row. *)
Lemma window_row_agree (x x' : list Q) (dim : Z) (Tau dT : Q) (i : Z) :
  0 <= win_start Tau dT i ->
  win_start Tau dT i <= win_end dim Tau dT i ->
  win_end dim Tau dT i < Z.of_nat (length x) ->
  win_end dim Tau dT i < Z.of_nat (length x') ->
  (forall k, win_start Tau dT i <= k <= win_end dim Tau dT i ->
     x !! Z.to_nat k = x' !! Z.to_nat k) ->
  window_row spline x dim Tau dT i = window_row spline x' dim Tau dT i.
Proof.
  intros Hs Hse He He' Hagree. unfold window_row.
  rewrite !py_slice_arange by lia.
  rewrite (py_slice_agree x x') by (try lia; intros k Hk; apply Hagree; lia).
  reflexivity.
Qed.

End Locality.

(** X5: a row depends on the signal only through its length and the samples
    [x[start] .. x[end]] of its window: for valid parameters, a signal of the
    same length that agrees with [x] on [start .. end] of window [i] has the
    same row [i]. *)
Theorem row_depends_on_its_window_only
    (spline : list Z -> list Q -> list Q -> list Q)
    (x x' : list Q) (dim : Z) (Tau dT : Q) (i : nat) (row : list Q) :
  1 <= dim -> (0 < Tau)%Q -> (0 < dT)%Q ->
  length x = length x' ->
  (forall k, win_start Tau dT (Z.of_nat i) <= k <= win_end dim Tau dT (Z.of_nat i) ->
     x !! Z.to_nat k = x' !! Z.to_nat k) ->
  emits spline x dim Tau dT i row ->
  emits spline x' dim Tau dT i row.
Proof.
  intros Hdim HT HdT Hlen Hagree He.
  destruct (emits_bounds spline x dim Tau dT i row
              (Qlt_le_weak _ _ HT) (Qlt_le_weak _ _ HdT) He) as (Hs & Hse & HeN).
  pose proof He as [HNW _].
  apply emits_inv in He as (_ & Hnz & Hc & _ & _ & ->).
  rewrite (NWindows_length x x') in HNW, Hc by assumption.
  split; [assumption|].
  eexists _, _. split; [now apply getSlidingWindow_rows|].
  rewrite list_lookup_fmap. rewrite <- Hlen.
  rewrite lookup_seqZ_lt by lia. simpl.
  f_equal. rewrite Z.add_0_l. symmetry.
  apply window_row_agree; (assumption || lia).
Qed.

Lemma row_depends_on_its_window_only_witness :
  emits linear_interp [1; 2; 3; 4; 9]%Q 2 1 1 0 [1; 2]%Q.
Proof.
  apply (row_depends_on_its_window_only linear_interp ramp5 [1; 2; 3; 4; 9]%Q 2 1 1 0 [1; 2]%Q);
    [lia | reflexivity | reflexivity | reflexivity | |].
  - intros k Hk. change (win_start 1 1 (Z.of_nat 0)) with 0 in Hk.
    change (win_end 2 1 1 (Z.of_nat 0)) with 3 in Hk.
    assert (k = 0 \/ k = 1 \/ k = 2 \/ k = 3) as [->|[->|[->| ->]]] by lia; reflexivity.
  - split; [reflexivity|]. eexists _, _. split; reflexivity.
Defined.

(** X6: for valid parameters and a signal that already passes the size
    guard, appending samples keeps every row and only adds rows after them:
    the embedding of [x] is a prefix of the embedding of [x ++ more]. *)
Theorem appending_samples_keeps_rows
    (spline : list Z -> list Q -> list Q -> list Q)
    (x more : list Q) (dim : Z) (Tau dT : Q) :
  1 <= dim -> (0 < Tau)%Q -> (0 < dT)%Q -> 0 < NWindows x dim Tau dT ->
  exists X new_rows,
    getSlidingWindow spline x dim Tau dT = Returned [] X /\
    getSlidingWindow spline (x ++ more) dim Tau dT = Returned [] (X ++ new_rows).
Proof.
  intros Hdim HT HdT HNW.
  assert (Hnz : ~ (dT == 0)%Q).
  { intros H. rewrite H in HdT. now apply Qlt_irrefl in HdT. }
  assert (Hd0 : (0 <= dT)%Q) by now apply Qlt_le_weak.
  assert (HT0 : (0 <= Tau)%Q) by now apply Qlt_le_weak.
  assert (Hlen : (length x <= length (x ++ more))%nat) by (rewrite length_app; lia).
  pose proof (NWindows_mono x (x ++ more) dim Tau dT HdT Hlen) as HM.
  set (N := Z.of_nat (length x)). set (N' := Z.of_nat (length (x ++ more))).
  set (M := NWindows x dim Tau dT) in *. set (M' := NWindows (x ++ more) dim Tau dT) in *.
  set (c := stored_windows N dim Tau dT (Z.to_nat M) 0).
  set (c' := stored_windows N' dim Tau dT (Z.to_nat M') 0).
  pose proof (stored_windows_le N dim Tau dT (Z.to_nat M) 0) as HcM. fold c in HcM.
  assert (Hfit : forall k, (k < c)%nat -> win_end dim Tau dT (Z.of_nat k) < N).
  { intros k Hk. exact (stored_windows_fit N dim Tau dT (Z.to_nat M) 0 k Hk). }
  assert (Hcc : (c <= c')%nat).
  { destruct c as [|k] eqn:Ec; [lia|].
    assert (Hk : (k < c')%nat).
    { apply stored_windows_iff; [assumption | lia |].
      specialize (Hfit k ltac:(lia)). subst N N'. lia. }
    lia. }
  exists (window_row spline x dim Tau dT <$> seqZ 0 (Z.of_nat c)),
         (window_row spline (x ++ more) dim Tau dT <$> seqZ (Z.of_nat c) (Z.of_nat c' - Z.of_nat c)).
  split; [now apply getSlidingWindow_rows|].
  rewrite getSlidingWindow_rows by (assumption || lia).
  fold N' M' c'. f_equal.
  replace (Z.of_nat c') with (Z.of_nat c + (Z.of_nat c' - Z.of_nat c)) at 1 by lia.
  rewrite seqZ_app by lia. rewrite fmap_app, Z.add_0_l. f_equal.
  apply list_eq. intros k. rewrite !list_lookup_fmap.
  destruct (seqZ 0 (Z.of_nat c) !! k) as [z|] eqn:Hz; [|reflexivity].
  apply lookup_seqZ in Hz as [-> Hk]. simpl. f_equal. rewrite Z.add_0_l.
  specialize (Hfit k ltac:(lia)).
  pose proof (win_start_nonneg Tau dT (Z.of_nat k) Hd0 ltac:(lia)).
  pose proof (win_start_le_end dim Tau dT (Z.of_nat k) Hdim HT0).
  symmetry. apply window_row_agree; try (subst N N'; lia).
  intros j Hj. symmetry. apply lookup_app_l. subst N. lia.
Qed.

Lemma appending_samples_keeps_rows_witness :
  exists X new_rows,
    getSlidingWindow linear_interp ramp5 2 1 1 = Returned [] X /\
    getSlidingWindow linear_interp (ramp5 ++ [6; 7; 8]%Q) 2 1 1 = Returned [] (X ++ new_rows).
Proof.
  apply (appending_samples_keeps_rows linear_interp ramp5 [6; 7; 8]%Q 2 1 1);
    [lia | reflexivity | reflexivity | reflexivity].
Defined.

(** ** Columns, knots and repeated samples *)

(** X7: whatever the parameters, an array that the call returns (the rows of
    the loop or the placeholder of the size guard) has exactly [dim] entries
    in every row, given a spline routine that yields one value per query. *)
Theorem returned_matrix_has_dim_columns
    (spline : list Z -> list Q -> list Q -> list Q)
    (x : list Q) (dim : Z) (Tau dT : Q) (out : list string) (X : matrix) :
  (forall xk yk xnew, length (spline xk yk xnew) = length xnew) ->
  getSlidingWindow spline x dim Tau dT = Returned out X ->
  Forall (fun row => length row = Z.to_nat dim) X.
Proof.
  intros Hshape Hret.
  destruct (Z.lt_ge_cases 0 (NWindows x dim Tau dT)) as [HNW|HNW].
  - destruct (getSlidingWindow_returned_dim spline x dim Tau dT out X HNW Hret)
      as [Hdim Hnz].
    rewrite getSlidingWindow_rows in Hret by assumption.
    injection Hret as _ <-.
    apply Forall_fmap, Forall_forall. intros i _. simpl.
    unfold window_row. rewrite Hshape. apply positions_length.
  - unfold getSlidingWindow in Hret.
    destruct (Qeq_bool dT 0); [discriminate|].
    destruct (Z.leb_spec (NWindows x dim Tau dT) 0) as [_|?]; [|lia].
    unfold np_zeros in Hret. destruct (Z.ltb_spec dim 0); simpl in Hret; [discriminate|].
    injection Hret as _ <-.
    repeat apply Forall_cons_2; try apply Forall_nil_2; apply length_replicate.
Qed.

Lemma returned_matrix_has_dim_columns_witness :
  Forall (fun row => length row = Z.to_nat 2) [[1; 2]; [3 # 2; 5 # 2]; [2; 3]]%Q.
Proof.
  apply (returned_matrix_has_dim_columns linear_interp ramp5 2 1 (1 # 2) []
           [[1; 2]; [3 # 2; 5 # 2]; [2; 3]]%Q);
    [exact (interp_length _ linear_interp_interpolant) | reflexivity].
Defined.

(** X8: for valid parameters, the slice handed to the spline routine for an
    emitted row holds at least 3 samples and fewer than [Tau*(dim-1) + 5]. *)
Theorem window_sample_count
    (spline : list Z -> list Q -> list Q -> list Q)
    (x : list Q) (dim : Z) (Tau dT : Q) (i : nat) (row : list Q) :
  1 <= dim -> (0 < Tau)%Q -> (0 < dT)%Q ->
  emits spline x dim Tau dT i row ->
  (3 <= length (py_slice x (win_start Tau dT (Z.of_nat i))
                          (win_end dim Tau dT (Z.of_nat i) + 1)))%nat /\
  (inject_Z (Z.of_nat (length (py_slice x (win_start Tau dT (Z.of_nat i))
                                         (win_end dim Tau dT (Z.of_nat i) + 1))))
   < Tau * inject_Z (dim - 1) + 5)%Q.
Proof.
  intros Hdim HT HdT He.
  destruct (emits_bounds spline x dim Tau dT i row
              (Qlt_le_weak _ _ HT) (Qlt_le_weak _ _ HdT) He) as (Hs & Hse & HeN).
  rewrite py_slice_length by lia. split; [lia|].
  rewrite Z2Nat.id by lia.
  unfold win_start, win_end in *.
  set (p0 := position Tau dT (Z.of_nat i) 0) in *.
  set (pl := position Tau dT (Z.of_nat i) (dim - 1)) in *.
  assert (Hspan : (pl - p0 == Tau * inject_Z (dim - 1))%Q).
  { unfold pl, p0, position. change (inject_Z 0) with 0%Q. ring. }
  pose proof (Qlt_floor p0) as Hf. pose proof (Qceiling_lt pl) as Hc.
  rewrite inject_Z_plus in Hf. rewrite inject_Z_pred in Hc.
  replace (Qceiling pl + 2 + 1 - Qfloor p0) with (Qceiling pl + (3 + - Qfloor p0)) by lia.
  rewrite !inject_Z_plus, inject_Z_opp.
  change (inject_Z 1) with 1%Q in Hf. change (inject_Z 3) with 3%Q. lra.
Qed.

Lemma window_sample_count_witness :
  (3 <= length (py_slice ramp5 (win_start 1 (1 # 2) (Z.of_nat 1))
                         (win_end 2 1 (1 # 2) (Z.of_nat 1) + 1)))%nat /\
  (inject_Z (Z.of_nat (length (py_slice ramp5 (win_start 1 (1 # 2) (Z.of_nat 1))
                                        (win_end 2 1 (1 # 2) (Z.of_nat 1) + 1))))
   < 1 * inject_Z (2 - 1) + 5)%Q.
Proof.
  apply (window_sample_count linear_interp ramp5 2 1 (1 # 2) 1 [3 # 2; 5 # 2]%Q);
    [lia | reflexivity | reflexivity |].
  split; [reflexivity|]. eexists _, _. split; reflexivity.
Defined.



(** ** The notebooks' call *)

(** X10: with the notebooks' values [dim = 20], [Tau = 1], [dT = 0.5], a
    signal of [N >= 22] samples gives exactly [2N - 43] rows, three fewer
    than the [2N - 40] candidates (277 of 280 for the 160-sample cosine). *)
Theorem notebook_embedding_row_count
    (spline : list Z -> list Q -> list Q -> list Q) (x : list Q) :
  22 <= Z.of_nat (length x) ->
  NWindows x 20 1 (1 # 2) = 2 * Z.of_nat (length x) - 40 /\
  exists X,
    notebook_embedding spline x = Returned [] X /\
    Z.of_nat (length X) = 2 * Z.of_nat (length x) - 43.
Proof.
  intros HN. set (N := Z.of_nat (length x)) in *.
  assert (HM : NWindows x 20 1 (1 # 2) = 2 * N - 40).
  { unfold NWindows. fold N.
    rewrite (Qfloor_comp _ (inject_Z (2 * N - 40))); [apply Qfloor_Z|].
    replace (2 * N - 40) with (2 * N + -40) by lia.
    rewrite inject_Z_plus, inject_Z_mult.
    change (inject_Z 2) with 2%Q. change (inject_Z 20) with 20%Q.
    change (inject_Z (-40)) with (- (40))%Q. field. }
  assert (HF : fitting_windows N 20 1 (1 # 2) = 2 * N - 43).
  { unfold fitting_windows.
    rewrite (Qfloor_comp _ (inject_Z (2 * N - 44))).
    - rewrite Qfloor_Z. lia.
    - replace (2 * N - 44) with (2 * N + -44) by lia.
      rewrite inject_Z_plus, inject_Z_mult.
      change (inject_Z 2) with 2%Q. change (inject_Z (20 - 1)) with 19%Q.
      change (inject_Z (-44)) with (- (44))%Q. field. }
  split; [exact HM|].
  eexists. split.
  - unfold notebook_embedding. apply getSlidingWindow_rows; [lia | lia | discriminate].
  - rewrite length_fmap, length_seqZ, Z2Nat.id by lia.
    rewrite stored_windows_closed_form by (reflexivity || lia).
    fold N. rewrite HM, HF. lia.
Qed.

Lemma notebook_embedding_row_count_witness :
  NWindows ramp24 20 1 (1 # 2) = 2 * Z.of_nat (length ramp24) - 40 /\
  exists X,
    notebook_embedding linear_interp ramp24 = Returned [] X /\
    Z.of_nat (length X) = 2 * Z.of_nat (length ramp24) - 43.
Proof.
  apply (notebook_embedding_row_count linear_interp ramp24).
  vm_compute. discriminate.
Defined.

(** X11: the second notebook's other two calls lose no row to the break:
    with [dim = 10], [Tau = 3], [dT = 0.5] a signal of [N >= 31] samples
    gives [2N - 60] rows, and with [dim = 20], [Tau = 5], [dT = 1] a signal
    of [N >= 101] samples gives [N - 100] rows. *)
Theorem second_notebook_row_counts
    (spline : list Z -> list Q -> list Q -> list Q) (x g : list Q) :
  31 <= Z.of_nat (length x) -> 101 <= Z.of_nat (length g) ->
  (exists X, two_sines_embedding spline x = Returned [] X /\
             Z.of_nat (length X) = 2 * Z.of_nat (length x) - 60) /\
  (exists X, g_embedding spline g = Returned [] X /\
             Z.of_nat (length X) = Z.of_nat (length g) - 100).
Proof.
  intros Hx Hg.
  assert (HMx : NWindows x 10 3 (1 # 2) = 2 * Z.of_nat (length x) - 60).
  { unfold NWindows.
    rewrite (Qfloor_comp _ (inject_Z (2 * Z.of_nat (length x) - 60))); [apply Qfloor_Z|].
    replace (2 * Z.of_nat (length x) - 60) with (2 * Z.of_nat (length x) + -60) by lia.
    rewrite inject_Z_plus, inject_Z_mult.
    change (inject_Z 2) with 2%Q. change (inject_Z 10) with 10%Q.
    change (inject_Z (-60)) with (- (60))%Q. field. }
  assert (HMg : NWindows g 20 5 1 = Z.of_nat (length g) - 100).
  { unfold NWindows.
    rewrite (Qfloor_comp _ (inject_Z (Z.of_nat (length g) - 100))); [apply Qfloor_Z|].
    replace (Z.of_nat (length g) - 100) with (Z.of_nat (length g) + -100) by lia.
    rewrite inject_Z_plus.
    change (inject_Z 20) with 20%Q. change (inject_Z (-100)) with (- (100))%Q. field. }
  split; eexists; (split;
    [ apply getSlidingWindow_rows; [lia | lia | discriminate]
    | rewrite length_fmap, length_seqZ, Z2Nat.id by lia;
      rewrite stored_windows_wide by (reflexivity || (vm_compute; discriminate) || lia);
      assumption ]).
Qed.

Lemma second_notebook_row_counts_witness :
  (exists X, two_sines_embedding linear_interp ramp102 = Returned [] X /\
             Z.of_nat (length X) = 2 * Z.of_nat (length ramp102) - 60) /\
  (exists X, g_embedding linear_interp ramp102 = Returned [] X /\
             Z.of_nat (length X) = Z.of_nat (length ramp102) - 100).
Proof.
  apply (second_notebook_row_counts linear_interp ramp102 ramp102);
    vm_compute; discriminate.
Defined.
